(** * bmstu::optional<T>: a shallow embedding of [bmstu_optional.h]

    The class keeps a byte buffer [data_] sized and aligned for a [T] and a
    flag [is_initialized_].  Every member function is embedded as a
    transformer of a store of [optional] objects indexed by address, so that
    [this == &other] is a comparison of addresses and the aliasing of
    [a = std::move(a)] is visible.  Exceptions, [noexcept] and the reads of
    a buffer that holds no object are explicit outcomes. *)

From stdpp Require Import gmap list.

Declare Scope cxx_scope.
Delimit Scope cxx_scope with cxx.

Module bmstu.

(** Addresses of [optional] objects. *)
Abbreviation addr := nat.

(** [pointer] / [reference]: the only pointers the class ever forms are
    [reinterpret_cast<pointer>(data_)], the address of the buffer of one
    [optional] object. *)
Inductive pointer : Set :=
| data_ptr (this : addr).

Definition owner (p : pointer) : addr :=
  match p with data_ptr a => a end.

#[global] Instance pointer_eq_dec : EqDecision pointer.
Proof. solve_decision. Defined.

Section optional.

(** [T] is [value_type]; [Args] ranges over the argument packs which
    [emplace] forwards to a constructor of [T]; [E] ranges over the
    exceptions thrown by the member functions of [T]. *)
Context {T Args E : Type}.

(** The member functions of [T] which the class calls.  A constructor
    yields the new object or the exception it throws.  An operation that
    takes a non-const reference also yields the state in which it leaves the
    referenced object, on both exits.  Assignment takes two references,
    which may denote one object: that case has its own entry. *)
Record value_type_ops : Type := {
  (* T(const T&) *)
  T_copy_ctor : T -> E + T;
  (* T{v} with v a const T&: list-initialisation, which selects a
     constructor from std::initializer_list where one accepts a T, and
     the copy constructor otherwise *)
  T_list_init : T -> E + T;
  (* T(T&&): the result and the moved-from source *)
  T_move_ctor : T -> (E + T) * T;
  (* T(args...) *)
  T_ctor : Args -> E + T;
  (* dst = src, two objects: the exception if any, and dst afterwards *)
  T_copy_assign : T -> T -> option E * T;
  (* x = x *)
  T_copy_assign_self : T -> option E * T;
  (* dst = std::move(src), two objects: dst and src afterwards *)
  T_move_assign : T -> T -> option E * (T * T);
  (* x = std::move(x) *)
  T_move_assign_self : T -> option E * T
}.

(** As the class template takes [T], every function below takes the member
    functions of [T], also where it calls none of them. *)
Context (ops : value_type_ops).

(** [alignas(T) uint8_t data_[sizeof(T)]]: either raw bytes in which no
    object lives, or the bytes of a live [T]. *)
Inductive storage : Type :=
| raw
| live (v : T).

Record optional : Type := mk_optional {
  data_ : storage;
  is_initialized_ : bool
}.

(** Constructor and destructor calls of [T] made in the buffers. *)
Inductive event : Type :=
| constructed (v : T)
| destroyed (v : T).

Record world : Type := mk_world {
  objs : gmap addr optional;
  trace : list event
}.

Inductive exn : Type :=
| bad_optional_access
| T_exception (e : E).

(** How a call ends: it returns, it exits by an exception, an exception
    reaches a [noexcept] boundary ([std::terminate]), or its behaviour is
    undefined. *)
Inductive outcome (A : Type) : Type :=
| Returns (a : A) (w : world)
| Throws (x : exn) (w : world)
| Terminates (w : world)
| Undefined.

Arguments Returns {A} a w.
Arguments Throws {A} x w.
Arguments Terminates {A} w.
Arguments Undefined {A}.

Definition M (A : Type) : Type := world -> outcome A.

Definition ret {A} (a : A) : M A := fun w => Returns a w.

Definition bind {A B} (m : M A) (k : A -> M B) : M B := fun w =>
  match m w with
  | Returns a w' => k a w'
  | Throws x w' => Throws x w'
  | Terminates w' => Terminates w'
  | Undefined => Undefined
  end.

Definition throw {A} (x : exn) : M A := fun w => Throws x w.

Definition undefined {A} : M A := fun _ => Undefined.

Local Notation "x <- m ;; k" := (bind m (fun x => k))
  (at level 100, m at next level, right associativity) : cxx_scope.
Local Notation "m ;; k" := (bind m (fun _ => k))
  (at level 100, right associativity) : cxx_scope.
Local Open Scope cxx_scope.

(** ** The store *)

#[using="ops"] Definition load (this : addr) : M optional := fun w =>
  match objs w !! this with
  | Some o => Returns o w
  | None => Undefined
  end.

#[using="ops"] Definition store (this : addr) (o : optional) : M unit := fun w =>
  Returns tt (mk_world (<[this := o]> (objs w)) (trace w)).

#[using="ops"] Definition log (ev : event) : M unit := fun w =>
  Returns tt (mk_world (objs w) (trace w ++ [ev])).

#[using="ops"] Definition get_is_initialized (this : addr) : M bool :=
  o <- load this ;; ret (is_initialized_ o).

#[using="ops"] Definition set_is_initialized (this : addr) (b : bool) : M unit :=
  o <- load this ;; store this (mk_optional (data_ o) b).

#[using="ops"] Definition set_data (this : addr) (s : storage) : M unit :=
  o <- load this ;; store this (mk_optional s (is_initialized_ o)).

(** [reinterpret_cast<pointer>(data_)] *)
#[using="ops"] Definition data_cast (this : addr) : M pointer :=
  load this ;; ret (data_ptr this).

(** Reading the [T] a reference denotes.  Undefined when no object lives
    in the buffer. *)
#[using="ops"] Definition read (p : pointer) : M T :=
  o <- load (owner p) ;;
  match data_ o with
  | live v => ret v
  | raw => undefined
  end.

#[using="ops"] Definition write (p : pointer) (v : T) : M unit :=
  set_data (owner p) (live v).

(** ** Calls into [T] *)

Definition rethrow (r : option E) : M unit :=
  match r with
  | Some e => throw (T_exception e)
  | None => ret tt
  end.

(** [new (data_) T(...)], given how the constructor call ends. *)
Definition placement_new (this : addr) (r : E + T) : M pointer :=
  match r with
  | inl e => throw (T_exception e)
  | inr v => set_data this (live v) ;; log (constructed v) ;; ret (data_ptr this)
  end.

(** [new (data_) value_type(src)] with [src] a const reference into
    another buffer. *)
Definition placement_new_copy (this : addr) (src : pointer) : M pointer :=
  s <- read src ;;
  placement_new this (T_copy_ctor ops s).

(** [new (data_) value_type(std::move(src))] *)
Definition placement_new_move (this : addr) (src : pointer) : M pointer :=
  s <- read src ;;
  let '(r, s') := T_move_ctor ops s in
  write src s' ;;
  placement_new this r.

(** [dst = val] with [val] an object of the caller. *)
Definition assign_from (dst : pointer) (val : T) : M unit :=
  d <- read dst ;;
  let '(r, d') := T_copy_assign ops d val in
  write dst d' ;;
  rethrow r.

(** [dst = std::move(val)] with [val] an object of the caller; the state
    in which [val] is left belongs to the caller. *)
Definition move_assign_from (dst : pointer) (val : T) : M unit :=
  d <- read dst ;;
  let '(r, (d', _)) := T_move_assign ops d val in
  write dst d' ;;
  rethrow r.

(** [dst = src] through two references. *)
Definition assign_at (dst src : pointer) : M unit :=
  if decide (dst = src) then
    d <- read dst ;;
    let '(r, d') := T_copy_assign_self ops d in
    write dst d' ;;
    rethrow r
  else
    s <- read src ;;
    assign_from dst s.

(** [dst = std::move(src)] through two references. *)
Definition move_assign_at (dst src : pointer) : M unit :=
  if decide (dst = src) then
    d <- read dst ;;
    let '(r, d') := T_move_assign_self ops d in
    write dst d' ;;
    rethrow r
  else
    d <- read dst ;;
    s <- read src ;;
    let '(r, (d', s')) := T_move_assign ops d s in
    write dst d' ;;
    write src s' ;;
    rethrow r.

(** [p->~T()] *)
#[using="ops"] Definition destroy_at (p : pointer) : M unit :=
  v <- read p ;;
  log (destroyed v) ;;
  set_data (owner p) raw.

(** ** Control flow *)

(* a && b *)
Definition andM (a b : M bool) : M bool :=
  x <- a ;; if x then b else ret false.

(* !a *)
Definition notM (a : M bool) : M bool :=
  x <- a ;; ret (negb x).

Definition ifM {A} (c : M bool) (t e : M A) : M A :=
  x <- c ;; if x then t else e.

Local Notation "'IF' c 'THEN' t 'ELSE' e" := (ifM c t e)
  (at level 99, c at level 98, t at level 98, e at level 99) : cxx_scope.
Local Notation "a &&& b" := (andM a b) (at level 40, left associativity) : cxx_scope.
Local Notation "! a" := (notM a) (at level 35, right associativity) : cxx_scope.

(** An exception that leaves a [noexcept] function calls [std::terminate]. *)
Definition noexcept {A} (m : M A) : M A := fun w =>
  match m w with
  | Throws _ w' => Terminates w'
  | o => o
  end.

(** The default member initialisers: [data_] is left as raw bytes and
    [is_initialized_ = false]. *)
Definition fresh_optional : optional := mk_optional raw false.

(** A constructor call: the object gets an address no live [optional]
    has, its members are initialised, and the body runs.  When the body
    exits by an exception the object never comes to exist and its storage
    is given back. *)
Definition construct (body : addr -> M unit) : M addr := fun w =>
  let this := fresh (dom (objs w)) in
  match body this (mk_world (<[this := fresh_optional]> (objs w)) (trace w)) with
  | Returns _ w' => Returns this w'
  | Throws x w' => Throws x (mk_world (delete this (objs w')) (trace w'))
  | Terminates w' => Terminates w'
  | Undefined => Undefined
  end.

(** The end of the lifetime of the [optional] at [this]. *)
#[using="ops"] Definition dealloc (this : addr) : M unit := fun w =>
  Returns tt (mk_world (delete this (objs w)) (trace w)).

(** ** Member functions of [optional]

    [other] is the address of the argument.  In [value() = other.value()]
    the right operand is evaluated first.  A [value_type] argument is an
    object of the caller, apart from the buffers of the store. *)

(* reference value() & *)
#[using="ops"] Definition value (this : addr) : M pointer :=
  IF ! get_is_initialized this THEN
    throw bad_optional_access
  ELSE
    data_cast this.

(* const_reference value() const & *)
#[using="ops"] Definition value_const (this : addr) : M pointer :=
  IF ! get_is_initialized this THEN
    throw bad_optional_access
  ELSE
    data_cast this.

(* rvalue_reference operator*() && *)
#[using="ops"] Definition deref_rvalue (this : addr) : M pointer :=
  IF ! get_is_initialized this THEN
    throw bad_optional_access
  ELSE
    data_cast this.

(* reference operator*() & *)
#[using="ops"] Definition deref (this : addr) : M pointer :=
  data_cast this.

(* const_reference operator*() const & *)
#[using="ops"] Definition deref_const (this : addr) : M pointer :=
  data_cast this.

(* pointer operator->() *)
#[using="ops"] Definition arrow (this : addr) : M pointer :=
  data_cast this.

(* const_pointer operator->() const *)
#[using="ops"] Definition arrow_const (this : addr) : M pointer :=
  data_cast this.

(* bool has_value() *)
#[using="ops"] Definition has_value (this : addr) : M bool :=
  get_is_initialized this.

(* void reset() *)
#[using="ops"] Definition reset (this : addr) : M unit :=
  IF get_is_initialized this THEN
    (p <- data_cast this ;;
     destroy_at p ;;
     set_is_initialized this false)
  ELSE
    ret tt.

(* template<typename ...Args> void emplace(Args &&...args) *)
Definition emplace (this : addr) (args : Args) : M unit :=
  (IF get_is_initialized this THEN reset this ELSE ret tt) ;;
  set_is_initialized this true ;;
  placement_new this (T_ctor ops args) ;;
  ret tt.

(* optional() = default; *)
#[using="ops"] Definition optional_default_body (this : addr) : M unit :=
  ret tt.

(* the body of optional(const optional &other) *)
Definition optional_copy_body (this other : addr) : M unit :=
  IF get_is_initialized this &&& get_is_initialized other THEN
    (q <- value_const other ;; p <- value this ;; assign_at p q)
  ELSE IF ! get_is_initialized this &&& get_is_initialized other THEN
    (q <- value_const other ;;
     placement_new_copy this q ;;
     set_is_initialized this true)
  ELSE IF get_is_initialized this &&& ! get_is_initialized other THEN
    reset this
  ELSE
    ret tt.

(* the body of optional(optional &&other) noexcept *)
Definition optional_move_body (this other : addr) : M unit :=
  IF get_is_initialized this &&& get_is_initialized other THEN
    (q <- value other ;; p <- value this ;; move_assign_at p q)
  ELSE IF ! get_is_initialized this &&& get_is_initialized other THEN
    (q <- value other ;;
     placement_new_move this q ;;
     set_is_initialized this true)
  ELSE IF get_is_initialized this &&& ! get_is_initialized other THEN
    reset this
  ELSE
    ret tt.

(* the body of explicit optional(const value_type &value), which constructs
   with braces: [new(data_) T{value}] *)
Definition optional_from_value_body (this : addr) (val : T) : M unit :=
  set_is_initialized this true ;;
  placement_new this (T_list_init ops val) ;;
  ret tt.

(* the body of explicit optional(value_type &&value) *)
Definition optional_from_rvalue_body (this : addr) (val : T) : M unit :=
  set_is_initialized this true ;;
  placement_new this (fst (T_move_ctor ops val)) ;;
  ret tt.

#[using="ops"] Definition optional_default : M addr :=
  construct optional_default_body.

Definition optional_copy (other : addr) : M addr :=
  construct (fun this => optional_copy_body this other).

Definition optional_move (other : addr) : M addr :=
  noexcept (construct (fun this => optional_move_body this other)).

Definition optional_from_value (val : T) : M addr :=
  construct (fun this => optional_from_value_body this val).

Definition optional_from_rvalue (val : T) : M addr :=
  construct (fun this => optional_from_rvalue_body this val).

(* optional &operator=(const value_type &val) *)
Definition assign_value (this : addr) (val : T) : M addr :=
  (IF get_is_initialized this THEN
     (p <- value this ;; assign_from p val)
   ELSE
     (placement_new this (T_copy_ctor ops val) ;;
      set_is_initialized this true)) ;;
  ret this.

(* optional &operator=(value_type &&val) *)
Definition assign_rvalue (this : addr) (val : T) : M addr :=
  (IF get_is_initialized this THEN
     (p <- value this ;; move_assign_from p val)
   ELSE
     (placement_new this (fst (T_move_ctor ops val)) ;;
      set_is_initialized this true)) ;;
  ret this.

(* optional &operator=(const optional &other) *)
Definition assign_copy (this other : addr) : M addr :=
  if decide (this = other) then
    ret this
  else
    ((IF get_is_initialized this &&& get_is_initialized other THEN
        (q <- value_const other ;; p <- value this ;; assign_at p q)
      ELSE IF ! get_is_initialized this &&& get_is_initialized other THEN
        (q <- value_const other ;;
         placement_new_copy this q ;;
         set_is_initialized this true)
      ELSE IF get_is_initialized this &&& ! get_is_initialized other THEN
        reset this
      ELSE
        ret tt) ;;
     ret this).

(* optional &operator=(optional &&other) *)
Definition assign_move (this other : addr) : M addr :=
  (IF get_is_initialized this &&& get_is_initialized other THEN
     (q <- value other ;; p <- value this ;; move_assign_at p q)
   ELSE IF ! get_is_initialized this &&& get_is_initialized other THEN
     (q <- value other ;;
      placement_new_move this q ;;
      set_is_initialized this true)
   ELSE IF get_is_initialized this &&& ! get_is_initialized other THEN
     reset this
   ELSE
     ret tt) ;;
  ret this.

(* the body of ~optional() *)
Definition optional_dtor_body (this : addr) : M unit :=
  IF get_is_initialized this THEN
    (ptr <- data_cast this ;; destroy_at ptr)
  ELSE
    ret tt.

Definition optional_dtor (this : addr) : M unit :=
  optional_dtor_body this ;; dealloc this.

(** ** The public interface as a whole *)

Inductive operation : Type :=
| call_optional_default
| call_optional_copy (other : addr)
| call_optional_move (other : addr)
| call_optional_from_value (val : T)
| call_optional_from_rvalue (val : T)
| call_assign_value (this : addr) (val : T)
| call_assign_rvalue (this : addr) (val : T)
| call_assign_copy (this other : addr)
| call_assign_move (this other : addr)
| call_deref (this : addr)
| call_deref_const (this : addr)
| call_arrow (this : addr)
| call_arrow_const (this : addr)
| call_deref_rvalue (this : addr)
| call_value (this : addr)
| call_value_const (this : addr)
| call_emplace (this : addr) (args : Args)
| call_reset (this : addr)
| call_dtor (this : addr)
| call_has_value (this : addr).

Definition void {A} (m : M A) : M unit :=
  m ;; ret tt.

Definition run (c : operation) : M unit :=
  match c with
  | call_optional_default => void optional_default
  | call_optional_copy other => void (optional_copy other)
  | call_optional_move other => void (optional_move other)
  | call_optional_from_value val => void (optional_from_value val)
  | call_optional_from_rvalue val => void (optional_from_rvalue val)
  | call_assign_value this val => void (assign_value this val)
  | call_assign_rvalue this val => void (assign_rvalue this val)
  | call_assign_copy this other => void (assign_copy this other)
  | call_assign_move this other => void (assign_move this other)
  | call_deref this => void (deref this)
  | call_deref_const this => void (deref_const this)
  | call_arrow this => void (arrow this)
  | call_arrow_const this => void (arrow_const this)
  | call_deref_rvalue this => void (deref_rvalue this)
  | call_value this => void (value this)
  | call_value_const this => void (value_const this)
  | call_emplace this args => emplace this args
  | call_reset this => reset this
  | call_dtor this => optional_dtor this
  | call_has_value this => void (has_value this)
  end.

(** The checked accessors: [value()] in both overloads and [operator*() &&]. *)
Definition checked_access (c : operation) : bool :=
  match c with
  | call_value _ | call_value_const _ | call_deref_rvalue _ => true
  | _ => false
  end.

Definition is_emplace (c : operation) : bool :=
  match c with
  | call_emplace _ _ => true
  | _ => false
  end.

(** The world in which a call ends, when there is one. *)
Definition final_world {A} (r : outcome A) : option world :=
  match r with
  | Returns _ w | Throws _ w | Terminates w => Some w
  | Undefined => None
  end.

Definition returns {A} (r : outcome A) : bool :=
  match r with
  | Returns _ _ => true
  | _ => false
  end.

(** ** The class invariant *)

(** The flag is set exactly when a [T] lives in the buffer. *)
Definition consistent (o : optional) : bool :=
  match data_ o, is_initialized_ o with
  | live _, true | raw, false => true
  | _, _ => false
  end.

Definition invariant (w : world) : Prop :=
  map_Forall (fun _ o => consistent o = true) (objs w).

(** The flag of the [optional] at [this], read off the store. *)
Definition flag_at (this : addr) (w : world) : option bool :=
  is_initialized_ <$> objs w !! this.

(** [m], a member function called on the [optional] at [this], has not yet
    set the flag when an exception leaves it: it finds the flag clear and,
    if it exits by an exception, the flag is clear in the world it leaves. *)
Definition disengaged_on_throw {A} (m : M A) (this : addr) : Prop :=
  forall w x w',
    flag_at this w = Some false -> m w = Throws x w' ->
    flag_at this w' = Some false.

(** ** Callers *)

(** The [optional] objects a call is made on or is given. *)
Definition operands (c : operation) : list addr :=
  match c with
  | call_optional_default
  | call_optional_from_value _
  | call_optional_from_rvalue _ => []
  | call_optional_copy other
  | call_optional_move other => [other]
  | call_assign_copy this other
  | call_assign_move this other => [this; other]
  | call_assign_value this _
  | call_assign_rvalue this _
  | call_deref this
  | call_deref_const this
  | call_arrow this
  | call_arrow_const this
  | call_deref_rvalue this
  | call_value this
  | call_value_const this
  | call_emplace this _
  | call_reset this
  | call_dtor this
  | call_has_value this => [this]
  end.

(** The unchecked accessors: [operator*() &] and [operator->()], const or
    not. *)
Definition unchecked_access (c : operation) : bool :=
  match c with
  | call_deref _ | call_deref_const _ | call_arrow _ | call_arrow_const _ =>
      true
  | _ => false
  end.

(** The containers which the body of a member function has a statement to
    change: [this] in the assignments, [reset] and the destructor, and the
    argument of a move constructor or move assignment.  There is no answer
    for the constructor from [value_type&&], [operator=(value_type&&)] and
    [emplace]: each moves from an object its caller refers it to, which
    can be the value of any container. *)
Definition may_modify (c : operation) : option (list addr) :=
  match c with
  | call_optional_from_rvalue _
  | call_assign_rvalue _ _
  | call_emplace _ _ => None
  | call_optional_move other => Some [other]
  | call_assign_move this other => Some [this; other]
  | call_assign_value this _
  | call_assign_copy this _
  | call_reset this
  | call_dtor this => Some [this]
  | _ => Some []
  end.

(** A caller that makes the calls of [cs] one after the other and catches
    whatever a call throws.  There is no result when the program is
    terminated or a call has undefined behaviour. *)
Fixpoint run_seq (cs : list operation) (w : world) : option world :=
  match cs with
  | [] => Some w
  | c :: cs' =>
      match run c w with
      | Returns _ w' | Throws _ w' => run_seq cs' w'
      | Terminates _ | Undefined => None
      end
  end.

(** No member function of [T] throws. *)
Definition nothrow : Prop :=
  (forall v, exists v', T_list_init ops v = inr v') /\
  (forall v, exists v', T_copy_ctor ops v = inr v') /\
  (forall v, exists v', fst (T_move_ctor ops v) = inr v') /\
  (forall a, exists v, T_ctor ops a = inr v) /\
  (forall d s, fst (T_copy_assign ops d s) = None) /\
  (forall d, fst (T_copy_assign_self ops d) = None) /\
  (forall d s, fst (T_move_assign ops d s) = None) /\
  (forall d, fst (T_move_assign_self ops d) = None).

End optional.

Arguments Returns {T E A} a w.
Arguments Throws {T E A} x w.
Arguments Terminates {T E A} w.
Arguments Undefined {T E A}.
Arguments bad_optional_access {E}.
Arguments raw {T}.

Notation "x <- m ;; k" := (bind m (fun x => k))
  (at level 100, m at next level, right associativity) : cxx_scope.
Notation "m ;; k" := (bind m (fun _ => k))
  (at level 100, right associativity) : cxx_scope.
Local Open Scope cxx_scope.

(** ** Contained types used as test inputs *)

(** [int]: every member function is trivial and nothing throws. *)
Definition int_ops : @value_type_ops Z Z Empty_set := {|
  T_copy_ctor v := inr v;
  T_list_init v := inr v;
  T_move_ctor v := (inr v, v);
  T_ctor a := inr a;
  T_copy_assign _ s := (None, s);
  T_copy_assign_self d := (None, d);
  T_move_assign _ s := (None, (s, s));
  T_move_assign_self d := (None, d)
|}.

(** [std::vector<int>] as libstdc++ implements it: a move takes the
    elements away from its source, and move assignment hands the elements
    of the destination to a temporary before it takes those of the source,
    so [x = std::move(x)] leaves [x] empty.  A vector of [int] is no
    [int], so that [T{v}] is the copy. *)
Definition vector_ops : @value_type_ops (list Z) (list Z) Empty_set := {|
  T_copy_ctor v := inr v;
  T_list_init v := inr v;
  T_move_ctor v := (inr v, []);
  T_ctor a := inr a;
  T_copy_assign _ s := (None, s);
  T_copy_assign_self d := (None, d);
  T_move_assign _ s := (None, (s, []));
  T_move_assign_self _ := (None, [])
|}.

(** A stand-in whose constructors throw on chosen inputs: construction from
    a negative argument and any copy or move of the value [0] throw. *)
Inductive thrower_error : Set :=
| construction_refused.

Definition thrower_ops : @value_type_ops Z Z thrower_error := {|
  T_copy_ctor v := if decide (v = 0%Z) then inl construction_refused else inr v;
  T_list_init v := if decide (v = 0%Z) then inl construction_refused else inr v;
  T_move_ctor v :=
    if decide (v = 0%Z) then (inl construction_refused, v) else (inr v, v);
  T_ctor a := if decide (a < 0)%Z then inl construction_refused else inr a;
  T_copy_assign _ s := (None, s);
  T_copy_assign_self d := (None, d);
  T_move_assign _ s := (None, (s, s));
  T_move_assign_self d := (None, d)
|}.

(** A tree whose constructor takes the children in braces:
    [struct Node { std::vector<Node> kids;
                   Node(std::initializer_list<Node> l) : kids(l) {} };]
    A [Node] is an element of such a list, so that [Node{v}] is the node
    with the one child [v], where [Node(v)] is the copy of [v].  A move
    takes the children away from its source. *)
#[warnings="-register-all"] Inductive node : Set :=
| Node (kids : list node).

Definition node_ops : @value_type_ops node (list node) Empty_set := {|
  T_copy_ctor v := inr v;
  T_list_init v := inr (Node [v]);
  T_move_ctor v := (inr v, Node []);
  T_ctor l := inr (Node l);
  T_copy_assign _ s := (None, s);
  T_copy_assign_self d := (None, d);
  T_move_assign _ s := (None, (s, Node []));
  T_move_assign_self _ := (None, Node [])
|}.

(** The store with no object in it. *)
Definition empty_world {T} : @world T :=
  mk_world ∅ [].

(** A store with one [optional] at address [0]. *)
Definition one_optional {T} (o : @optional T) : @world T :=
  mk_world {[ 0 := o ]} [].

(** A store with [optional]s at the addresses [0] and [1]. *)
Definition two_optionals {T} (a b : @optional T) : @world T :=
  mk_world (<[1 := b]> {[ 0 := a ]}) [].

(** * Properties of the class *)

Ltac unfold_members :=
  unfold run, void, optional_dtor, optional_dtor_body, dealloc,
    assign_move, assign_copy, assign_rvalue, assign_value,
    optional_from_rvalue, optional_from_value, optional_move, optional_copy,
    optional_default, optional_from_rvalue_body, optional_from_value_body,
    optional_move_body, optional_copy_body, optional_default_body,
    emplace, reset, has_value, arrow_const, arrow, deref_const, deref,
    deref_rvalue, value_const, value, construct, noexcept, ifM, notM, andM,
    destroy_at, move_assign_at, assign_at, move_assign_from, assign_from,
    placement_new_move, placement_new_copy, placement_new, rethrow, write,
    read, data_cast, set_data, set_is_initialized, get_is_initialized, log,
    store, load, undefined, throw, bind, ret, flag_at, fresh_optional in *.

Ltac reduce :=
  cbn [objs trace data_ is_initialized_ owner fst snd negb andb
       final_world returns consistent fmap option_fmap option_map] in *.

(** Rewriting of the reads of the store and of the calls into [T] whose
    result a hypothesis gives. *)
Ltac lookups :=
  repeat match goal with
  | |- context [<[?a := _]> _ !! ?a] => rewrite lookup_insert_eq
  | |- context [<[?a := _]> _ !! ?b] =>
      rewrite (lookup_insert_ne _ a b) by congruence
  | |- context [delete ?a _ !! ?a] => rewrite lookup_delete_eq
  | |- context [delete ?a _ !! ?b] =>
      rewrite (lookup_delete_ne _ a b) by congruence
  | H : ?m !! ?a = _ |- context [?m !! ?a] => rewrite H
  | H : T_copy_ctor ?o ?x = _ |- context [T_copy_ctor ?o ?x] => rewrite H
  | H : T_list_init ?o ?x = _ |- context [T_list_init ?o ?x] => rewrite H
  | H : T_move_ctor ?o ?x = _ |- context [T_move_ctor ?o ?x] => rewrite H
  | H : T_ctor ?o ?x = _ |- context [T_ctor ?o ?x] => rewrite H
  | H : T_copy_assign ?o ?x ?y = _ |- context [T_copy_assign ?o ?x ?y] =>
      rewrite H
  | H : T_copy_assign_self ?o ?x = _ |- context [T_copy_assign_self ?o ?x] =>
      rewrite H
  | H : T_move_assign ?o ?x ?y = _ |- context [T_move_assign ?o ?x ?y] =>
      rewrite H
  | H : T_move_assign_self ?o ?x = _ |- context [T_move_assign_self ?o ?x] =>
      rewrite H
  | H : is_initialized_ ?o = _ |- context [is_initialized_ ?o] => rewrite H
  | H : data_ ?o = _ |- context [data_ ?o] => rewrite H
  | |- context [decide ?P] => destruct (decide P); try congruence
  end.

(** Symbolic execution of a member function on a store whose relevant
    entries are known. *)
Ltac steps := repeat (progress (reduce; lookups)).

Ltac exec := unfold_members; steps.

(** Case analysis on an innermost scrutinee of the goal. *)
Ltac inner_case :=
  match goal with
  | |- context [match ?s with _ => _ end] =>
      lazymatch s with
      | context [match _ with _ => _ end] => fail
      | _ => destruct s eqn:?
      end
  end.

(** All the paths through a member function. *)
Ltac paths := exec; repeat (inner_case; steps).

Section specs.

Context {T Args E : Type} (ops : @value_type_ops T Args E).

Implicit Types (w : @world T) (this other : addr) (o : @optional T).
Implicit Types (v val : T).

(** ** [reset] *)

Lemma reset_engaged w this v :
  objs w !! this = Some (mk_optional (live v) true) ->
  reset ops this w =
    Returns tt (mk_world (<[this := mk_optional raw false]> (objs w))
                         (trace w ++ [destroyed v])).
Proof.
  intros Hthis. exec. by rewrite insert_insert_eq.
Qed.

Lemma reset_disengaged w this o :
  objs w !! this = Some o -> is_initialized_ o = false ->
  reset ops this w = Returns tt w.
Proof.
  intros Hthis Hflag. by exec.
Qed.

(** A call of [reset] never exits by an exception, and when it returns the
    flag is clear. *)
Lemma reset_returns_disengaged w this w' :
  reset ops this w = Returns tt w' -> flag_at this w' = Some false.
Proof.
  unfold_members. reduce.
  destruct (objs w !! this) as [[d b]|] eqn:Hthis; [|done].
  destruct b; steps.
  - destruct d; [done|]. steps. intros [= <-]. by steps.
  - intros [= <-]. by steps.
Qed.

Lemma reset_idempotent w this :
  (reset ops this ;; reset ops this) w = reset ops this w.
Proof.
  unfold bind at 1.
  destruct (reset ops this w) as [[] w'| | |] eqn:Hreset; try done.
  pose proof (reset_returns_disengaged _ _ _ Hreset) as Hflag.
  unfold flag_at in Hflag.
  destruct (objs w' !! this) as [o|] eqn:Hthis; [|done].
  injection Hflag as Hflag. by apply (reset_disengaged w' this o).
Qed.

(** C9. [reset()] on an engaged container destroys the contained value and
    leaves [has_value() == false]; on a disengaged container it changes
    nothing; and [reset()] twice is [reset()] once. *)
Theorem reset_spec w this o :
  objs w !! this = Some o ->
  (forall v, is_initialized_ o = true -> data_ o = live v ->
     exists w',
       reset ops this w = Returns tt w' /\
       objs w' = <[this := mk_optional raw false]> (objs w) /\
       trace w' = trace w ++ [destroyed v] /\
       has_value ops this w' = Returns false w')
  /\ (is_initialized_ o = false -> reset ops this w = Returns tt w)
  /\ (forall w0 a, (reset ops a ;; reset ops a) w0 = reset ops a w0).
Proof.
  intros Hthis. split; [|split].
  - intros v Hflag Hdata. destruct o as [d b]. simpl in *. subst.
    eexists. split; [by apply reset_engaged|].
    repeat split. by exec.
  - intros Hflag. by apply (reset_disengaged w this o).
  - intros w0 a. apply reset_idempotent.
Qed.

(** ** The accessors *)

Lemma data_cast_at w this o :
  objs w !! this = Some o -> data_cast ops this w = Returns (data_ptr this) w.
Proof. intros Hthis. by exec. Qed.

Lemma value_engaged w this o :
  objs w !! this = Some o -> is_initialized_ o = true ->
  value ops this w = Returns (data_ptr this) w.
Proof. intros Hthis Hflag. by exec. Qed.

Lemma value_disengaged w this o :
  objs w !! this = Some o -> is_initialized_ o = false ->
  value ops this w = Throws bad_optional_access w.
Proof. intros Hthis Hflag. by exec. Qed.

Lemma value_raises_iff w this o :
  objs w !! this = Some o ->
  (exists w', value ops this w = Throws bad_optional_access w') <->
  is_initialized_ o = false.
Proof.
  intros Hthis. split.
  - intros [w' Hthrow]. destruct (is_initialized_ o) eqn:Hflag; [|done].
    by rewrite (value_engaged w this o) in Hthrow.
  - intros Hflag. exists w. by apply (value_disengaged w this o).
Qed.

(** [bad_optional_access] leaves no member function but the checked
    accessors: where another one calls [value()], it has just tested the
    flag, and what [T] throws is not a [bad_optional_access]. *)
Lemma unchecked_never_bad_access (c : operation) w w' :
  checked_access c = false ->
  run ops c w <> Throws bad_optional_access w'.
Proof.
  intros Hc. destruct c; try discriminate Hc; clear Hc; paths; congruence.
Qed.

(** C1. [value()], in both overloads, and the rvalue dereference raise
    [bad_optional_access] exactly when the container is disengaged; when it
    is engaged they return a reference to the contained value and the world
    is as before; and no call of another public member function ends in
    [bad_optional_access]. *)
Theorem checked_access_spec w this o :
  objs w !! this = Some o ->
  (((exists w', value ops this w = Throws bad_optional_access w') <->
    is_initialized_ o = false) /\
   ((exists w', value_const ops this w = Throws bad_optional_access w') <->
    is_initialized_ o = false) /\
   ((exists w', deref_rvalue ops this w = Throws bad_optional_access w') <->
    is_initialized_ o = false))
  /\ (is_initialized_ o = true ->
      value ops this w = Returns (data_ptr this) w /\
      value_const ops this w = Returns (data_ptr this) w /\
      deref_rvalue ops this w = Returns (data_ptr this) w)
  /\ (forall v, is_initialized_ o = true -> data_ o = live v ->
      (p <- value ops this ;; read ops p) w = Returns v w /\
      (p <- value_const ops this ;; read ops p) w = Returns v w /\
      (p <- deref_rvalue ops this ;; read ops p) w = Returns v w)
  /\ (forall (c : operation) w0 w',
      checked_access c = false ->
      run ops c w0 <> Throws bad_optional_access w').
Proof.
  intros Hthis.
  change (value_const ops this) with (value ops this).
  change (deref_rvalue ops this) with (value ops this).
  pose proof (value_raises_iff w this o Hthis) as Hiff.
  split; [by repeat split; apply Hiff|].
  split; [by intros Hflag; rewrite (value_engaged w this o)|].
  split; [|by intros c w0 w'; apply unchecked_never_bad_access].
  intros v Hflag Hdata. by exec.
Qed.

(** C10. The lvalue dereference and the arrow operator, const or not, test
    nothing: whatever the flag says they return the address of the buffer,
    they leave the world as it is and they never exit by an exception;
    reading through the reference they give on a disengaged container is
    undefined. *)
Theorem unchecked_access_spec w this o :
  objs w !! this = Some o ->
  (deref ops this w = Returns (data_ptr this) w /\
   deref_const ops this w = Returns (data_ptr this) w /\
   arrow ops this w = Returns (data_ptr this) w /\
   arrow_const ops this w = Returns (data_ptr this) w)
  /\ (forall (c : operation) (x : exn) w0 w',
      c = call_deref this \/ c = call_deref_const this \/
      c = call_arrow this \/ c = call_arrow_const this ->
      run ops c w0 <> Throws x w')
  /\ (is_initialized_ o = false -> consistent o = true ->
      (p <- deref ops this ;; read ops p) w = Undefined /\
      (p <- arrow ops this ;; read ops p) w = Undefined).
Proof.
  intros Hthis. split; [|split].
  - unfold deref, deref_const, arrow, arrow_const.
    by rewrite (data_cast_at w this o).
  - intros c x w0 w' [-> | [-> | [-> | ->]]]; paths; congruence.
  - destruct o as [[|v] b]; simpl; intros -> Hinv; try done. by exec.
Qed.

(** ** Construction *)

Lemma fresh_is_new w a o :
  objs w !! a = Some o -> fresh (dom (objs w)) <> a.
Proof.
  intros Ha Heq. apply (is_fresh (dom (objs w))).
  rewrite Heq. apply elem_of_dom. by exists o.
Qed.

Lemma fresh_lookup w : objs w !! fresh (dom (objs w)) = None.
Proof. apply not_elem_of_dom, is_fresh. Qed.

(** Constructing a container from a value leaves it engaged, and
    [value()] then denotes the object which [T{value}] made (for an
    rvalue, the one the move constructor made). *)
Lemma optional_from_value_spec w val v :
  (T_list_init ops val = inr v ->
   exists this w',
     optional_from_value ops val w = Returns this w' /\
     has_value ops this w' = Returns true w' /\
     (p <- value ops this ;; read ops p) w' = Returns v w')
  /\ (fst (T_move_ctor ops val) = inr v ->
      exists this w',
        optional_from_rvalue ops val w = Returns this w' /\
        has_value ops this w' = Returns true w' /\
        (p <- value ops this ;; read ops p) w' = Returns v w').
Proof.
  split.
  - intros Hcopy. do 2 eexists. split; [by exec|]. by exec.
  - destruct (T_move_ctor ops val) as [r s'] eqn:Hmove. simpl. intros ->.
    do 2 eexists. split; [by exec|]. by exec.
Qed.

(** C8. Whatever the container held, [emplace(args...)] followed by
    [value()] yields the object [T(args...)]; a value held before is
    destroyed first. *)
Theorem emplace_then_value w this o args v :
  objs w !! this = Some o ->
  consistent o = true ->
  T_ctor ops args = inr v ->
  exists w',
    emplace ops this args w = Returns tt w' /\
    has_value ops this w' = Returns true w' /\
    (p <- value ops this ;; read ops p) w' = Returns v w' /\
    trace w' =
      trace w ++
      match data_ o with
      | live v0 => [destroyed v0]
      | raw => []
      end ++ [constructed v].
Proof.
  intros Hthis Hinv Hctor.
  destruct o as [[|v0] [|]]; try discriminate Hinv; clear Hinv.
  - eexists. split; [by exec|]. split; [by exec|]. split; [by exec|].
    reduce. by rewrite app_nil_l.
  - eexists. split; [by exec|]. split; [by exec|]. split; [by exec|].
    reduce. by rewrite <- app_assoc.
Qed.

(** ** Moves *)

(** C6. After move construction or move assignment from an engaged source
    the destination is engaged and holds what the move of [T] produced,
    and the source is still engaged, holding the moved-from object. *)
Theorem move_leaves_source_engaged w other v :
  objs w !! other = Some (mk_optional (live v) true) ->
  (forall v' s',
     T_move_ctor ops v = (inr v', s') ->
     exists this w',
       optional_move ops other w = Returns this w' /\
       objs w' !! this = Some (mk_optional (live v') true) /\
       objs w' !! other = Some (mk_optional (live s') true) /\
       has_value ops other w' = Returns true w')
  /\ (forall this v' s',
      objs w !! this = Some (mk_optional raw false) ->
      T_move_ctor ops v = (inr v', s') ->
      exists w',
        assign_move ops this other w = Returns this w' /\
        objs w' !! this = Some (mk_optional (live v') true) /\
        objs w' !! other = Some (mk_optional (live s') true) /\
        has_value ops other w' = Returns true w')
  /\ (forall this d d' s',
      this <> other ->
      objs w !! this = Some (mk_optional (live d) true) ->
      T_move_assign ops d v = (None, (d', s')) ->
      exists w',
        assign_move ops this other w = Returns this w' /\
        objs w' !! this = Some (mk_optional (live d') true) /\
        objs w' !! other = Some (mk_optional (live s') true) /\
        has_value ops other w' = Returns true w').
Proof.
  intros Hother. split; [|split].
  - intros v' s' Hmove.
    pose proof (fresh_is_new w other _ Hother) as Hnew.
    do 2 eexists. split; [by exec|]. by exec.
  - intros this v' s' Hthis Hmove.
    assert (this <> other) by (intros ->; congruence).
    eexists. split; [by exec|]. by exec.
  - intros this d d' s' Hne Hthis Hmove.
    eexists. split; [by exec|]. by exec.
Qed.

(** ** Self-assignment *)

(** [a = a] returns at once. *)
Lemma assign_copy_self w this :
  assign_copy ops this this w = Returns this w.
Proof. unfold assign_copy. by rewrite decide_True. Qed.

(** [a = std::move(a)] on a disengaged container takes no branch. *)
Lemma assign_move_self_disengaged w this o :
  objs w !! this = Some o -> is_initialized_ o = false ->
  assign_move ops this this w = Returns this w.
Proof. intros Hthis Hflag. by exec. Qed.

(** [a = std::move(a)] on an engaged container has no test of
    [this == &other]: it move-assigns the contained object to itself. *)
Lemma assign_move_self_engaged w this v v' :
  objs w !! this = Some (mk_optional (live v) true) ->
  T_move_assign_self ops v = (None, v') ->
  assign_move ops this this w =
    Returns this (mk_world (<[this := mk_optional (live v') true]> (objs w))
                           (trace w)).
Proof. intros Hthis Hself. by exec. Qed.

(** ** Exceptions of [T] during construction *)

(** [emplace] sets the flag before it constructs: when the constructor
    throws, the flag stays set over a buffer that holds no object. *)
Lemma emplace_throw w this o args e :
  objs w !! this = Some o ->
  consistent o = true ->
  T_ctor ops args = inl e ->
  exists w',
    emplace ops this args w = Throws (T_exception e) w' /\
    objs w' !! this = Some (mk_optional raw true) /\
    has_value ops this w' = Returns true w'.
Proof.
  intros Hthis Hinv Hctor.
  destruct o as [[|v0] [|]]; try discriminate Hinv; clear Hinv.
  - eexists. split; [by exec|]. by exec.
  - eexists. split; [by exec|]. by exec.
Qed.

(** Two objects whose flags differ are two objects. *)
Ltac distinct :=
  match goal with
  | H1 : objs ?w !! ?a = _, H2 : objs ?w !! ?b = _ |- _ =>
      assert (b <> a) by (intros ->; simplify_eq/=)
  end.

Ltac on_throw :=
  intros w x w' Hflag; unfold flag_at in Hflag;
  destruct (objs w !! _) as [[d b]|] eqn:Hthis; [|done];
  injection Hflag as ->;
  paths; try done; intros ?; simplify_eq; try distinct; by steps.

Lemma optional_copy_body_on_throw this other :
  disengaged_on_throw (optional_copy_body ops this other) this.
Proof. on_throw. Qed.

Lemma optional_move_body_on_throw this other :
  disengaged_on_throw (optional_move_body ops this other) this.
Proof. on_throw. Qed.

Lemma assign_value_on_throw this val :
  disengaged_on_throw (assign_value ops this val) this.
Proof. on_throw. Qed.

Lemma assign_rvalue_on_throw this val :
  disengaged_on_throw (assign_rvalue ops this val) this.
Proof. on_throw. Qed.

Lemma assign_copy_on_throw this other :
  disengaged_on_throw (assign_copy ops this other) this.
Proof. on_throw. Qed.

Lemma assign_move_on_throw this other :
  disengaged_on_throw (assign_move ops this other) this.
Proof. on_throw. Qed.

(** When the constructor of [T] throws in a value constructor, the
    container does not come to exist: the store is as it was. *)
Lemma optional_from_value_throw w val e :
  T_list_init ops val = inl e ->
  optional_from_value ops val w = Throws (T_exception e) w.
Proof.
  intros Hcopy. destruct w as [m t]. exec.
  rewrite !delete_insert_eq, delete_id; [done|].
  apply (fresh_lookup (mk_world m t)).
Qed.

Lemma optional_from_rvalue_throw w val e :
  fst (T_move_ctor ops val) = inl e ->
  optional_from_rvalue ops val w = Throws (T_exception e) w.
Proof.
  destruct (T_move_ctor ops val) as [r s'] eqn:Hmove. simpl. intros ->.
  destruct w as [m t]. exec.
  rewrite !delete_insert_eq, delete_id; [done|].
  apply (fresh_lookup (mk_world m t)).
Qed.

(** C4, amended. In the copy and move constructors and in the four
    assignment operators on a disengaged destination, the flag is set only
    after the placement construction has completed, so that an exception of
    the constructor of [T] leaves the container disengaged.  In the value
    constructors an exception of the constructor of [T] propagates and no
    container comes to exist. *)
Theorem flag_set_after_construction this other val :
  (disengaged_on_throw (optional_copy_body ops this other) this /\
   disengaged_on_throw (optional_move_body ops this other) this /\
   disengaged_on_throw (assign_value ops this val) this /\
   disengaged_on_throw (assign_rvalue ops this val) this /\
   disengaged_on_throw (assign_copy ops this other) this /\
   disengaged_on_throw (assign_move ops this other) this)
  /\ (forall w e,
      objs w !! this = Some (mk_optional raw false) ->
      (T_copy_ctor ops val = inl e ->
       assign_value ops this val w = Throws (T_exception e) w) /\
      (fst (T_move_ctor ops val) = inl e ->
       assign_rvalue ops this val w = Throws (T_exception e) w) /\
      (forall v,
         objs w !! other = Some (mk_optional (live v) true) ->
         T_copy_ctor ops v = inl e ->
         assign_copy ops this other w = Throws (T_exception e) w /\
         optional_copy_body ops this other w = Throws (T_exception e) w) /\
      (forall v s',
         objs w !! other = Some (mk_optional (live v) true) ->
         T_move_ctor ops v = (inl e, s') ->
         exists w',
           assign_move ops this other w = Throws (T_exception e) w' /\
           optional_move_body ops this other w = Throws (T_exception e) w' /\
           flag_at this w' = Some false))
  /\ (forall w e,
      (T_list_init ops val = inl e ->
       optional_from_value ops val w = Throws (T_exception e) w) /\
      (fst (T_move_ctor ops val) = inl e ->
       optional_from_rvalue ops val w = Throws (T_exception e) w)).
Proof.
  split; [|split].
  - repeat split.
    + apply optional_copy_body_on_throw.
    + apply optional_move_body_on_throw.
    + apply assign_value_on_throw.
    + apply assign_rvalue_on_throw.
    + apply assign_copy_on_throw.
    + apply assign_move_on_throw.
  - intros w e Hthis. repeat split.
    + intros Hcopy. by exec.
    + destruct (T_move_ctor ops val) as [r s'] eqn:Hmove. simpl. intros ->.
      by exec.
    + assert (this <> other) by (intros ->; congruence). by exec.
    + by exec.
    + intros v s' Hother Hmove.
      assert (this <> other) by (intros ->; congruence).
      eexists. split; [by exec|]. split; by exec.
  - intros w e. split.
    + apply optional_from_value_throw.
    + apply optional_from_rvalue_throw.
Qed.

(** ** The class invariant *)

Lemma invariant_lookup w a o :
  invariant w -> objs w !! a = Some o -> consistent o = true.
Proof. intros Hinv Ha. by apply (Hinv a o). Qed.

(** The invariant of a store that results from updates of another. *)
Ltac invariant_of_updates Hinv :=
  intros k ok; reduce;
  repeat (rewrite lookup_insert || rewrite lookup_delete);
  repeat case_decide; subst;
  try (intros [= <-]; reduce; steps; done);
  try done;
  try (intros Hk; apply (Hinv k ok Hk)).

(** Every public member function keeps the invariant on every exit, but
    for [emplace], which keeps it when it returns. *)
Lemma invariant_preserved (c : operation) w w' :
  invariant w ->
  is_emplace c = false \/ returns (run ops c w) = true ->
  final_world (run ops c w) = Some w' ->
  invariant w'.
Proof.
  intros Hinv Hc.
  destruct c; revert Hc; paths; intros [Hc|Hc]; simpl in Hc;
    try discriminate Hc; intros [= <-]; try assumption;
    unfold invariant, map_Forall in *;
    invariant_of_updates Hinv.
Qed.

End specs.

(** * The properties on concrete containers *)

Local Open Scope Z_scope.

(** C1 on [optional<int>], disengaged and holding [42]. *)
Lemma checked_access_spec_witness :
  (objs (one_optional (@fresh_optional Z)) !! 0%nat = Some fresh_optional /\
   exists w',
     value int_ops 0%nat (one_optional fresh_optional) =
       Throws bad_optional_access w')
  /\ (objs (one_optional (mk_optional (live 42) true)) !! 0%nat =
       Some (mk_optional (live 42) true) /\
     (p <- value int_ops 0%nat ;; read int_ops p)
       (one_optional (mk_optional (live 42) true)) =
     Returns 42 (one_optional (mk_optional (live 42) true))).
Proof.
  split; (split; [reflexivity|]).
  - apply (checked_access_spec int_ops (one_optional fresh_optional) 0%nat
             fresh_optional); reflexivity.
  - apply (checked_access_spec int_ops
             (one_optional (mk_optional (live 42) true)) 0%nat
             (mk_optional (live 42) true)); reflexivity.
Defined.

(** C10 on a disengaged [optional<int>]. *)
Lemma unchecked_access_spec_witness :
  objs (one_optional (@fresh_optional Z)) !! 0%nat = Some fresh_optional /\
  deref int_ops 0%nat (one_optional fresh_optional) =
    Returns (data_ptr 0) (one_optional fresh_optional) /\
  (p <- deref int_ops 0%nat ;; read int_ops p) (one_optional fresh_optional) =
    Undefined.
Proof.
  split; [reflexivity|].
  destruct (unchecked_access_spec int_ops (one_optional fresh_optional) 0%nat
              fresh_optional eq_refl) as ((Hderef & _) & _ & Hread).
  split; [exact Hderef|].
  exact (proj1 (Hread eq_refl eq_refl)).
Defined.

(** C9 on an [optional<int>] that holds [7]. *)
Lemma reset_spec_witness :
  objs (one_optional (mk_optional (live 7) true)) !! 0%nat =
    Some (mk_optional (live 7) true) /\
  exists w',
    reset int_ops 0%nat (one_optional (mk_optional (live 7) true)) =
      Returns tt w' /\
    objs w' = <[0%nat := mk_optional raw false]> {[ 0%nat := mk_optional (live 7) true ]} /\
    trace w' = [destroyed 7] /\
    has_value int_ops 0%nat w' = Returns false w'.
Proof.
  split; [reflexivity|].
  exact (proj1 (reset_spec int_ops (one_optional (mk_optional (live 7) true))
                  0%nat (mk_optional (live 7) true) eq_refl)
               7 eq_refl eq_refl).
Defined.

(** C8 on an [optional<int>] that holds [1]: [a.emplace(2)]. *)
Lemma emplace_then_value_witness :
  (objs (one_optional (mk_optional (live 1) true)) !! 0%nat =
     Some (mk_optional (live 1) true) /\
   consistent (mk_optional (live 1) true) = true /\
   T_ctor int_ops 2 = inr 2) /\
  exists w',
    emplace int_ops 0%nat 2 (one_optional (mk_optional (live 1) true)) =
      Returns tt w' /\
    has_value int_ops 0%nat w' = Returns true w' /\
    (p <- value int_ops 0%nat ;; read int_ops p) w' = Returns 2 w' /\
    trace w' = [destroyed 1; constructed 2].
Proof.
  split; [repeat split; reflexivity|].
  exact (emplace_then_value int_ops (one_optional (mk_optional (live 1) true))
           0%nat (mk_optional (live 1) true) 2 2 eq_refl eq_refl eq_refl).
Defined.

(** C7 at its failing input: [Node v{}; optional<Node> a(v);].  The value
    constructor builds with braces, so the container holds the node with
    the one child [v], which is not [v], although the copy constructor of
    [Node] copies faithfully; the constructor from an rvalue, which builds
    with parentheses, holds [v]. *)
Theorem value_ctor_list_initialises :
  T_copy_ctor node_ops (Node []) = inr (Node []) /\
  (exists this w',
     optional_from_value node_ops (Node []) empty_world = Returns this w' /\
     has_value node_ops this w' = Returns true w' /\
     (p <- value node_ops this ;; read node_ops p) w' =
       Returns (Node [Node []]) w' /\
     Node [Node []] <> Node []) /\
  (exists this w',
     optional_from_rvalue node_ops (Node []) empty_world = Returns this w' /\
     (p <- value node_ops this ;; read node_ops p) w' = Returns (Node []) w').
Proof.
  split; [reflexivity|]. split.
  - destruct (proj1 (optional_from_value_spec node_ops empty_world
                       (Node []) (Node [Node []])) eq_refl)
      as (this & w' & Hrun & Hflag & Hvalue).
    exists this, w'. repeat split; try assumption. discriminate.
  - destruct (proj2 (optional_from_value_spec node_ops empty_world
                       (Node []) (Node [])) eq_refl)
      as (this & w' & Hrun & _ & Hvalue).
    by exists this, w'.
Qed.

(** C6 on [optional<std::vector<int>>]: [optional b(std::move(a))] with [a]
    holding [{1, 2, 3}], and [b = std::move(a)] with [b] disengaged. *)
Lemma move_leaves_source_engaged_witness :
  (objs (one_optional (mk_optional (live [1; 2; 3]) true)) !! 0%nat =
     Some (mk_optional (live [1; 2; 3]) true) /\
   T_move_ctor vector_ops [1; 2; 3] = (inr [1; 2; 3], []) /\
   exists this w',
     optional_move vector_ops 0%nat
       (one_optional (mk_optional (live [1; 2; 3]) true)) = Returns this w' /\
     objs w' !! this = Some (mk_optional (live [1; 2; 3]) true) /\
     objs w' !! 0%nat = Some (mk_optional (live []) true) /\
     has_value vector_ops 0%nat w' = Returns true w')
  /\ (objs (two_optionals fresh_optional (mk_optional (live [1; 2; 3]) true))
       !! 1%nat = Some (mk_optional (live [1; 2; 3]) true) /\
     objs (two_optionals fresh_optional (mk_optional (live [1; 2; 3]) true))
       !! 0%nat = Some (mk_optional raw false) /\
     exists w',
       assign_move vector_ops 0%nat 1%nat
         (two_optionals fresh_optional (mk_optional (live [1; 2; 3]) true)) =
         Returns 0%nat w' /\
       objs w' !! 0%nat = Some (mk_optional (live [1; 2; 3]) true) /\
       objs w' !! 1%nat = Some (mk_optional (live []) true) /\
       has_value vector_ops 1%nat w' = Returns true w').
Proof.
  split.
  - split; [reflexivity|]. split; [reflexivity|].
    exact (proj1 (move_leaves_source_engaged vector_ops
                    (one_optional (mk_optional (live [1; 2; 3]) true))
                    0%nat [1; 2; 3] eq_refl)
                 [1; 2; 3] [] eq_refl).
  - split; [reflexivity|]. split; [reflexivity|].
    exact (proj1 (proj2 (move_leaves_source_engaged vector_ops
                    (two_optionals fresh_optional
                       (mk_optional (live [1; 2; 3]) true))
                    1%nat [1; 2; 3] eq_refl))
                 0%nat [1; 2; 3] [] eq_refl eq_refl).
Defined.

(** C4 as it is stated fails at the value constructor: with a [T] whose
    copy constructor throws, the exception leaves the body of
    [optional(const value_type&)] with the flag already set. *)
Lemma value_ctor_sets_flag_before_construction :
  ~ disengaged_on_throw (optional_from_value_body thrower_ops 0%nat 0) 0%nat.
Proof.
  intros Hclaim.
  specialize (Hclaim (one_optional fresh_optional)
                (T_exception construction_refused)
                (mk_world (<[0%nat := mk_optional raw true]>
                             {[ 0%nat := fresh_optional ]}) [])
                eq_refl eq_refl).
  discriminate Hclaim.
Qed.

(** C4, amended, with a [T] whose copy and move of [0] throw: [b = a],
    [b = std::move(a)] and [b = v] on a disengaged [b], and
    [optional<T> c(v)]. *)
Lemma flag_set_after_construction_witness :
  (objs (two_optionals fresh_optional (mk_optional (live 0) true)) !! 0%nat =
     Some (mk_optional raw false) /\
   objs (two_optionals fresh_optional (mk_optional (live 0) true)) !! 1%nat =
     Some (mk_optional (live 0) true) /\
   T_copy_ctor thrower_ops 0 = inl construction_refused /\
   T_list_init thrower_ops 0 = inl construction_refused /\
   T_move_ctor thrower_ops 0 = (inl construction_refused, 0))
  /\ assign_copy thrower_ops 0%nat 1%nat
       (two_optionals fresh_optional (mk_optional (live 0) true)) =
     Throws (T_exception construction_refused)
       (two_optionals fresh_optional (mk_optional (live 0) true))
  /\ (exists w',
       assign_move thrower_ops 0%nat 1%nat
         (two_optionals fresh_optional (mk_optional (live 0) true)) =
         Throws (T_exception construction_refused) w' /\
       optional_move_body thrower_ops 0%nat 1%nat
         (two_optionals fresh_optional (mk_optional (live 0) true)) =
         Throws (T_exception construction_refused) w' /\
       flag_at 0%nat w' = Some false)
  /\ assign_value thrower_ops 0%nat 0
       (two_optionals fresh_optional (mk_optional (live 0) true)) =
     Throws (T_exception construction_refused)
       (two_optionals fresh_optional (mk_optional (live 0) true))
  /\ optional_from_value thrower_ops 0 empty_world =
     Throws (T_exception construction_refused) empty_world.
Proof.
  split; [repeat split; reflexivity|].
  destruct (flag_set_after_construction thrower_ops 0%nat 1%nat 0)
    as (_ & Hassign & Hctor).
  destruct (Hassign (two_optionals fresh_optional (mk_optional (live 0) true))
              construction_refused eq_refl)
    as (Hvalue & _ & Hcopy & Hmove).
  split; [exact (proj1 (Hcopy 0 eq_refl eq_refl))|].
  split; [exact (Hmove 0 0 eq_refl eq_refl)|].
  split; [exact (Hvalue eq_refl)|].
  exact (proj1 (Hctor empty_world construction_refused) eq_refl).
Defined.

(** C3 at its failing input: [a.emplace(-1)] with a [T] whose constructor
    refuses a negative argument, on a disengaged [a] and on an [a] that
    holds [5].  The exception leaves [has_value() == true]. *)
Theorem emplace_throw_leaves_engaged :
  (exists w',
     emplace thrower_ops 0%nat (-1) (one_optional fresh_optional) =
       Throws (T_exception construction_refused) w' /\
     has_value thrower_ops 0%nat w' = Returns true w')
  /\ (exists w',
       emplace thrower_ops 0%nat (-1)
         (one_optional (mk_optional (live 5) true)) =
         Throws (T_exception construction_refused) w' /\
       has_value thrower_ops 0%nat w' = Returns true w' /\
       trace w' = [destroyed 5]).
Proof.
  split.
  - destruct (emplace_throw thrower_ops (one_optional fresh_optional) 0%nat
                fresh_optional (-1) construction_refused
                eq_refl eq_refl eq_refl) as (w' & Hrun & _ & Hflag).
    by exists w'.
  - eexists. split; [reflexivity|]. split; reflexivity.
Qed.

(** C2 at its failing input: the store with one disengaged container
    satisfies the invariant, and the store which the exception of
    [a.emplace(-1)] leaves does not: the flag is set over raw bytes. *)
Theorem emplace_throw_breaks_invariant :
  invariant (one_optional (@fresh_optional Z)) /\
  exists w',
    run thrower_ops (call_emplace 0%nat (-1)) (one_optional fresh_optional) =
      Throws (T_exception construction_refused) w' /\
    objs w' !! 0%nat = Some (mk_optional raw true) /\
    ~ invariant w'.
Proof.
  split.
  - by apply map_Forall_singleton.
  - destruct (emplace_throw thrower_ops (one_optional fresh_optional) 0%nat
                fresh_optional (-1) construction_refused
                eq_refl eq_refl eq_refl) as (w' & Hrun & Hthis & _).
    exists w'. split; [exact Hrun|]. split; [exact Hthis|].
    intros Hinv. by pose proof (invariant_lookup _ _ _ Hinv Hthis).
Qed.

(** C5 at its failing input: [a = std::move(a)] on an
    [optional<std::vector<int>>] that holds [{1, 2, 3}] returns with the
    vector empty, where [a = a] leaves the store as it is. *)
Theorem self_move_assignment_changes_value :
  let w := one_optional (mk_optional (live [1; 2; 3]) true) in
  assign_copy vector_ops 0%nat 0%nat w = Returns 0%nat w /\
  (p <- value vector_ops 0%nat ;; read vector_ops p) w =
    Returns [1; 2; 3] w /\
  exists w',
    assign_move vector_ops 0%nat 0%nat w = Returns 0%nat w' /\
    (p <- value vector_ops 0%nat ;; read vector_ops p) w' = Returns [] w'.
Proof.
  intros w. split; [apply assign_copy_self|]. split; [reflexivity|].
  eexists. split.
  - by apply (assign_move_self_engaged vector_ops w 0%nat [1; 2; 3] []).
  - by exec.
Qed.

(** * Further properties of the member functions *)

Section lifetime.

Context {T Args E : Type} (ops : @value_type_ops T Args E).

Implicit Types (w : @world T) (this other : addr) (o : @optional T).
Implicit Types (v val : T).

(** X1. The destructor of an engaged container calls the destructor of
    the contained value once and ends the lifetime of the container; on
    a disengaged container it calls no destructor of [T]. *)
Theorem optional_dtor_spec w this o :
  objs w !! this = Some o ->
  (forall v, is_initialized_ o = true -> data_ o = live v ->
     optional_dtor ops this w =
       Returns tt (mk_world (delete this (objs w))
                            (trace w ++ [destroyed v])))
  /\ (is_initialized_ o = false ->
      optional_dtor ops this w =
        Returns tt (mk_world (delete this (objs w)) (trace w))).
Proof.
  intros Hthis. split.
  - intros v Hflag Hdata. exec. by rewrite delete_insert_eq.
  - intros Hflag. by exec.
Qed.

(** X2. A container constructed from a value and then destroyed leaves
    the store as it found it; in its buffer one object was constructed,
    the one [T{value}] makes, and that object was destroyed. *)
Theorem construct_then_destroy w val v :
  T_list_init ops val = inr v ->
  (this <- optional_from_value ops val ;; optional_dtor ops this) w =
    Returns tt (mk_world (objs w) (trace w ++ [constructed v; destroyed v])).
Proof.
  intros Hcopy. exec.
  rewrite !delete_insert_eq, delete_id by apply fresh_lookup.
  by rewrite <- app_assoc.
Qed.


(** X4. Assignment of a value constructs a copy in a disengaged
    container.  In an engaged one it calls the copy assignment of [T] on
    the contained object, and no constructor or destructor; the container
    is engaged afterwards, also when that assignment throws. *)
Theorem assign_value_spec w this o val :
  objs w !! this = Some o ->
  (forall v, is_initialized_ o = false -> T_copy_ctor ops val = inr v ->
     assign_value ops this val w =
       Returns this (mk_world (<[this := mk_optional (live v) true]> (objs w))
                              (trace w ++ [constructed v])))
  /\ (forall d d' r,
      is_initialized_ o = true -> data_ o = live d ->
      T_copy_assign ops d val = (r, d') ->
      let w' := mk_world (<[this := mk_optional (live d') true]> (objs w))
                         (trace w) in
      assign_value ops this val w =
        match r with
        | None => Returns this w'
        | Some e => Throws (T_exception e) w'
        end).
Proof.
  intros Hthis. split.
  - intros v Hflag Hcopy. exec. by rewrite insert_insert_eq.
  - intros d d' r Hflag Hdata Hassign w'. exec. by destruct r.
Qed.

(** X5. The same for the assignment of an rvalue, with the move
    constructor and the move assignment of [T]. *)
Theorem assign_rvalue_spec w this o val :
  objs w !! this = Some o ->
  (forall v, is_initialized_ o = false ->
     fst (T_move_ctor ops val) = inr v ->
     assign_rvalue ops this val w =
       Returns this (mk_world (<[this := mk_optional (live v) true]> (objs w))
                              (trace w ++ [constructed v])))
  /\ (forall d d' s' r,
      is_initialized_ o = true -> data_ o = live d ->
      T_move_assign ops d val = (r, (d', s')) ->
      let w' := mk_world (<[this := mk_optional (live d') true]> (objs w))
                         (trace w) in
      assign_rvalue ops this val w =
        match r with
        | None => Returns this w'
        | Some e => Throws (T_exception e) w'
        end).
Proof.
  intros Hthis. split.
  - intros v Hflag. destruct (T_move_ctor ops val) as [r s'] eqn:Hmove.
    simpl. intros ->. exec. by rewrite insert_insert_eq.
  - intros d d' s' r Hflag Hdata Hassign w'. exec. by destruct r.
Qed.

(** X6. A default-constructed container is disengaged and no [T] has been
    constructed; assigning a value engages it with the copy; [reset]
    disengages it again, after which [value()] throws. *)
Theorem lifecycle w val v :
  T_copy_ctor ops val = inr v ->
  exists a w1 w2 w3,
    optional_default ops w = Returns a w1 /\
    trace w1 = trace w /\
    has_value ops a w1 = Returns false w1 /\
    value ops a w1 = Throws bad_optional_access w1 /\
    assign_value ops a val w1 = Returns a w2 /\
    has_value ops a w2 = Returns true w2 /\
    (p <- value ops a ;; read ops p) w2 = Returns v w2 /\
    reset ops a w2 = Returns tt w3 /\
    has_value ops a w3 = Returns false w3 /\
    value ops a w3 = Throws bad_optional_access w3.
Proof.
  intros Hcopy. do 4 eexists.
  split; [by exec|]. split; [done|]. split; [by exec|]. split; [by exec|].
  split; [by exec|]. split; [by exec|]. split; [by exec|].
  split; [by exec|]. split; by exec.
Qed.

(** X7. The copy constructor called on an engaged source copy-constructs
    the contained value and leaves the source as it is; a later assignment
    to the copy does not reach the source.  Called on a disengaged source
    it gives a disengaged container and constructs no [T]. *)
Theorem optional_copy_spec w other o :
  objs w !! other = Some o ->
  (forall v v',
     is_initialized_ o = true -> data_ o = live v ->
     T_copy_ctor ops v = inr v' ->
     exists this w',
       optional_copy ops other w = Returns this w' /\
       objs w' !! this = Some (mk_optional (live v') true) /\
       objs w' !! other = Some o /\
       trace w' = trace w ++ [constructed v'] /\
       forall val d' w'',
         T_copy_assign ops v' val = (None, d') ->
         assign_value ops this val w' = Returns this w'' ->
         objs w'' !! this = Some (mk_optional (live d') true) /\
         objs w'' !! other = Some o)
  /\ (is_initialized_ o = false ->
      exists this w',
        optional_copy ops other w = Returns this w' /\
        objs w' !! this = Some (mk_optional raw false) /\
        objs w' !! other = Some o /\
        trace w' = trace w).
Proof.
  intros Hother. pose proof (fresh_is_new w other o Hother) as Hnew. split.
  - intros v v' Hflag Hdata Hcopy.
    do 2 eexists. split; [by exec|]. split; [by exec|]. split; [by exec|].
    split; [done|].
    intros val d' w'' Hassign. exec. intros [= <-]. by exec.
  - intros Hflag.
    do 2 eexists. split; [by exec|]. split; [by exec|]. split; by exec.
Qed.

(** X8. When the constructor of [T] throws under the copy constructor, the
    exception reaches the caller and the store is as before.  Under the
    move constructor, which is [noexcept], the program is terminated. *)
Theorem constructor_exception w other v e :
  objs w !! other = Some (mk_optional (live v) true) ->
  (T_copy_ctor ops v = inl e ->
   optional_copy ops other w = Throws (T_exception e) w)
  /\ (forall s', T_move_ctor ops v = (inl e, s') ->
      exists w', optional_move ops other w = Terminates w').
Proof.
  intros Hother. pose proof (fresh_is_new w other _ Hother) as Hnew. split.
  - intros Hcopy. destruct w as [m t]. exec.
    rewrite delete_insert_eq, delete_id; [done|].
    apply (fresh_lookup (mk_world m t)).
  - intros s' Hmove. eexists. by exec.
Qed.

(** X9. After an exception has left [emplace], the flag is set over raw
    bytes, and the behaviour of the next [reset], [emplace], assignment of
    a value or destructor call on the container is undefined: each of them
    calls a member function of [T] on the bytes. *)
Theorem after_emplace_throw w this o args e :
  objs w !! this = Some o ->
  consistent o = true ->
  T_ctor ops args = inl e ->
  exists w',
    emplace ops this args w = Throws (T_exception e) w' /\
    reset ops this w' = Undefined /\
    optional_dtor ops this w' = Undefined /\
    (forall args', emplace ops this args' w' = Undefined) /\
    (forall val, assign_value ops this val w' = Undefined) /\
    (forall val, assign_rvalue ops this val w' = Undefined).
Proof.
  intros Hthis Hinv Hctor.
  destruct o as [[|v0] [|]]; try discriminate Hinv; clear Hinv.
  - eexists. split; [by exec|]. repeat split; intros; by exec.
  - eexists. split; [by exec|]. repeat split; intros; by exec.
Qed.

End lifetime.

(** ** Properties of every public member function *)

(** The inequalities in [a ∉ l]. *)
Ltac split_notin :=
  repeat match goal with
  | H : _ ∉ _ :: _ |- _ => apply not_elem_of_cons in H as [? H]
  end.

(** The facts in [Forall P l]. *)
Ltac split_forall :=
  repeat match goal with
  | H : Forall _ (_ :: _) |- _ => apply Forall_cons in H as [? H]
  | H : is_Some _ |- _ => destruct H as [? H]
  end.

(** An address of the store is not the one a constructor call takes. *)
Ltac not_fresh :=
  repeat match goal with
  | H : objs ?w !! ?a = Some ?o |- _ =>
      lazymatch goal with
      | _ : fresh (dom (objs w)) <> a |- _ => fail
      | _ => pose proof (fresh_is_new w a o H)
      end
  end.

Section interface.

Context {T Args E : Type} (ops : @value_type_ops T Args E).

Implicit Types (w : @world T) (this other : addr) (o : @optional T).
Implicit Types (c : @operation T Args).

(** X10. A call of a member function that takes no [value_type&&] and
    no [Args&&] changes no container but those its body has a statement to
    change: the accessors, [has_value] and the default constructor change
    none, the copy constructor, the constructor from [const value_type&]
    and copy assignment leave their argument and every other container as
    they are, and the move constructor changes its argument only. *)
Theorem frame c w w' l a o :
  may_modify c = Some l ->
  objs w !! a = Some o ->
  a ∉ l ->
  final_world (run ops c w) = Some w' ->
  objs w' !! a = Some o.
Proof.
  intros Hmay Ha Hnot.
  destruct c; cbn [may_modify] in Hmay; try discriminate Hmay;
    injection Hmay as <-; split_notin; not_fresh;
    try (destruct (decide (this = other)) as [->|]);
    paths; intros [= <-]; by steps.
Qed.

(** A set flag over raw bytes contradicts the invariant. *)
Ltac flag_over_raw Hinv :=
  match goal with
  | H : objs _ !! _ = Some ?o, Hd : data_ ?o = raw,
    Hf : is_initialized_ ?o = true |- _ =>
      pose proof (invariant_lookup _ _ _ Hinv H) as Hc;
      unfold consistent in Hc; rewrite Hd, Hf in Hc; discriminate Hc
  end.

(** X11. In a store that satisfies the class invariant, a call of a
    member function other than [emplace] on containers of the store has no
    undefined behaviour, when the unchecked accessors are called on
    engaged containers only: whatever the engagement otherwise, and
    whether or not the two operands of an assignment are one container.
    The reference which an unchecked accessor returns then denotes the
    contained value. *)
Theorem defined_behaviour c w :
  invariant w ->
  Forall (fun a => is_Some (objs w !! a)) (operands c) ->
  is_emplace c = false ->
  (unchecked_access c = true ->
   Forall (fun a => flag_at a w = Some true) (operands c)) ->
  run ops c w <> Undefined /\
  (unchecked_access c = true ->
   forall this, this ∈ operands c ->
   exists v,
     (p <- deref ops this ;; read ops p) w = Returns v w /\
     (p <- arrow ops this ;; read ops p) w = Returns v w).
Proof.
  intros Hinv Hop Hc Hengaged. split.
  - clear Hengaged.
    destruct c; try discriminate Hc; clear Hc; cbn [operands] in Hop;
      split_forall; not_fresh;
      try (destruct (decide (this = other)) as [->|]);
      paths; try done; try congruence; exfalso; flag_over_raw Hinv.
  - intros Hu this Hin. specialize (Hengaged Hu).
    rewrite Forall_forall in Hengaged. specialize (Hengaged this Hin).
    unfold flag_at in Hengaged.
    destruct (objs w !! this) as [[d b]|] eqn:Hthis; [|done].
    injection Hengaged as ->.
    pose proof (invariant_lookup _ _ _ Hinv Hthis) as Hlive.
    destruct d as [|v]; [done|].
    exists v. split; by exec.
Qed.

(** A member function of a [nothrow] type has not thrown. *)
Ltac has_not_thrown Hno :=
  destruct Hno as (Hli & Hcc & Hmc & Hc & Hca & Hcas & Hma & Hmas);
  match goal with
  | Hx : T_list_init _ ?v = inl _ |- _ =>
      destruct (Hli v); congruence
  | Hx : T_copy_ctor _ ?v = inl _ |- _ =>
      destruct (Hcc v); congruence
  | Hx : fst (T_move_ctor _ ?v) = inl _ |- _ =>
      destruct (Hmc v); congruence
  | Hx : T_move_ctor _ ?v = (inl _, _) |- _ =>
      destruct (Hmc v) as [? Hy]; rewrite Hx in Hy; discriminate Hy
  | Hx : T_ctor _ ?a = inl _ |- _ =>
      destruct (Hc a); congruence
  | Hx : T_copy_assign _ ?d ?s = (Some _, _) |- _ =>
      pose proof (Hca d s) as Hy; rewrite Hx in Hy; discriminate Hy
  | Hx : T_copy_assign_self _ ?d = (Some _, _) |- _ =>
      pose proof (Hcas d) as Hy; rewrite Hx in Hy; discriminate Hy
  | Hx : T_move_assign _ ?d ?s = (Some _, _) |- _ =>
      pose proof (Hma d s) as Hy; rewrite Hx in Hy; discriminate Hy
  | Hx : T_move_assign_self _ ?d = (Some _, _) |- _ =>
      pose proof (Hmas d) as Hy; rewrite Hx in Hy; discriminate Hy
  end.

(** X12. With a [T] none of whose member functions throws, the only
    exception a call can end in is the [bad_optional_access] of a checked
    accessor, and no call terminates the program. *)
Theorem nothrow_exceptions c w :
  nothrow ops ->
  (forall x w',
     run ops c w = Throws x w' ->
     checked_access c = true /\ x = bad_optional_access)
  /\ (forall w', run ops c w <> Terminates w').
Proof.
  intros Hno. split.
  - intros x w'. destruct c; paths; try done;
      try (by intros [= <- <-]); exfalso; has_not_thrown Hno.
  - intros w'. destruct c; paths; try done; exfalso; has_not_thrown Hno.
Qed.

(** X13. When an assignment from another container or a copy or move
    constructor returns, the destination has the engagement the argument
    had at the call, and the flag of the argument is as it was. *)
Theorem mirrors_engagement w this other a w' :
  is_Some (objs w !! other) ->
  (assign_copy ops this other w = Returns a w' \/
   assign_move ops this other w = Returns a w' ->
   a = this /\
   flag_at this w' = flag_at other w /\
   flag_at other w' = flag_at other w)
  /\ (optional_copy ops other w = Returns a w' \/
      optional_move ops other w = Returns a w' ->
      a = fresh (dom (objs w)) /\
      flag_at a w' = flag_at other w /\
      flag_at other w' = flag_at other w).
Proof.
  intros [o Hother]. not_fresh. split.
  - destruct (decide (this = other)) as [->|];
      (intros [Hrun|Hrun]; revert Hrun; paths; try done;
       intros [= <- <-]; by steps).
  - intros [Hrun|Hrun]; revert Hrun; paths; try done;
      intros [= <- <-]; by steps.
Qed.

(** ** Sequences of calls *)

(** When the constructor which [emplace] calls cannot throw, [emplace]
    does not exit by an exception. *)
Lemma emplace_no_exception w this args :
  (forall a, exists v, T_ctor ops a = inr v) ->
  returns (emplace ops this args w) = true \/
  emplace ops this args w = Undefined.
Proof.
  intros Hctor. destruct (Hctor args) as [v Hv].
  paths; auto.
Qed.

(** X14. Whatever calls a program makes one after the other, catching
    the exceptions, the class invariant holds of the store it reaches from
    a store where it holds, provided the constructor which [emplace] calls
    cannot throw. *)
Theorem invariant_run_seq (cs : list operation) w w' :
  (forall a, exists v, T_ctor ops a = inr v) ->
  invariant w ->
  run_seq ops cs w = Some w' ->
  invariant w'.
Proof.
  intros Hctor. revert w. induction cs as [|c cs IH]; intros w Hinv.
  - by intros [= <-].
  - cbn [run_seq].
    assert (Hc : is_emplace c = false \/ returns (run ops c w) = true \/
                 run ops c w = Undefined).
    { destruct c; auto. right. apply emplace_no_exception, Hctor. }
    pose proof (invariant_preserved ops c w) as Hstep.
    destruct (run ops c w) as [r w1|x w1|w1|] eqn:Hrun; try done.
    + apply IH, Hstep; [done| |done]. destruct Hc as [?|[?|?]]; auto; done.
    + apply IH, Hstep; [done| |done]. destruct Hc as [?|[?|?]]; auto; done.
Qed.

(** ** Assignment from another container *)

(** X15. Copy assignment between two containers, by the engagement of
    each: copy assignment of [T] when both are engaged, copy construction
    into a disengaged destination, destruction of the destination when only
    it is engaged, and nothing when neither is.  An exception of [T] is
    passed on; after one out of the constructor the store is as before. *)
Theorem assign_copy_spec w this other o1 o2 :
  this <> other ->
  objs w !! this = Some o1 ->
  objs w !! other = Some o2 ->
  consistent o1 = true ->
  consistent o2 = true ->
  assign_copy ops this other w =
    match data_ o1, data_ o2 with
    | live d, live s =>
        let w' := mk_world
                    (<[this := mk_optional
                                 (live (snd (T_copy_assign ops d s))) true]>
                       (objs w))
                    (trace w) in
        match fst (T_copy_assign ops d s) with
        | None => Returns this w'
        | Some e => Throws (T_exception e) w'
        end
    | raw, live s =>
        match T_copy_ctor ops s with
        | inr v =>
            Returns this
              (mk_world (<[this := mk_optional (live v) true]> (objs w))
                        (trace w ++ [constructed v]))
        | inl e => Throws (T_exception e) w
        end
    | live d, raw =>
        Returns this
          (mk_world (<[this := mk_optional raw false]> (objs w))
                    (trace w ++ [destroyed d]))
    | raw, raw => Returns this w
    end.
Proof.
  intros Hne Hthis Hother Hinv1 Hinv2.
  destruct o1 as [[|d] [|]]; try discriminate Hinv1;
    destruct o2 as [[|s] [|]]; try discriminate Hinv2;
    clear Hinv1 Hinv2; cbn [data_].
  - by exec.
  - destruct (T_copy_ctor ops s) as [e|v] eqn:Hcopy; exec; [done|].
    by rewrite insert_insert_eq.
  - exec. by rewrite insert_insert_eq.
  - destruct (T_copy_assign ops d s) as [[e|] d'] eqn:Hassign; by exec.
Qed.

(** X16. Move assignment between two containers, by the engagement of
    each: as copy assignment, with the move assignment and the move
    constructor of [T], which leave the moved-from object in the argument;
    the argument stays engaged. *)
Theorem assign_move_spec w this other o1 o2 :
  this <> other ->
  objs w !! this = Some o1 ->
  objs w !! other = Some o2 ->
  consistent o1 = true ->
  consistent o2 = true ->
  assign_move ops this other w =
    match data_ o1, data_ o2 with
    | live d, live s =>
        let '(r, (d', s')) := T_move_assign ops d s in
        let w' := mk_world
                    (<[other := mk_optional (live s') true]>
                       (<[this := mk_optional (live d') true]> (objs w)))
                    (trace w) in
        match r with
        | None => Returns this w'
        | Some e => Throws (T_exception e) w'
        end
    | raw, live s =>
        let '(r, s') := T_move_ctor ops s in
        let m := <[other := mk_optional (live s') true]> (objs w) in
        match r with
        | inr v =>
            Returns this
              (mk_world (<[this := mk_optional (live v) true]> m)
                        (trace w ++ [constructed v]))
        | inl e => Throws (T_exception e) (mk_world m (trace w))
        end
    | live d, raw =>
        Returns this
          (mk_world (<[this := mk_optional raw false]> (objs w))
                    (trace w ++ [destroyed d]))
    | raw, raw => Returns this w
    end.
Proof.
  intros Hne Hthis Hother Hinv1 Hinv2.
  destruct o1 as [[|d] [|]]; try discriminate Hinv1;
    destruct o2 as [[|s] [|]]; try discriminate Hinv2;
    clear Hinv1 Hinv2; cbn [data_].
  - by exec.
  - destruct (T_move_ctor ops s) as [[e|v] s'] eqn:Hmove; exec; [done|].
    by rewrite insert_insert_eq.
  - exec. by rewrite insert_insert_eq.
  - destruct (T_move_assign ops d s) as [[e|] [d' s']] eqn:Hassign; by exec.
Qed.

End interface.

(** * The further properties on concrete containers *)

(** X1 on an [optional<int>] that holds [7]. *)
Lemma optional_dtor_spec_witness :
  objs (one_optional (mk_optional (live 7) true)) !! 0%nat =
    Some (mk_optional (live 7) true) /\
  optional_dtor int_ops 0%nat (one_optional (mk_optional (live 7) true)) =
    Returns tt (mk_world (delete 0%nat {[ 0%nat := mk_optional (live 7) true ]})
                         [destroyed 7]).
Proof.
  split; [reflexivity|].
  exact (proj1 (optional_dtor_spec int_ops
                  (one_optional (mk_optional (live 7) true)) 0%nat
                  (mk_optional (live 7) true) eq_refl)
               7 eq_refl eq_refl).
Defined.

(** X2 on [optional<int>]: [{ optional<int> a(42); }]. *)
Lemma construct_then_destroy_witness :
  T_list_init int_ops 42 = inr 42 /\
  (this <- optional_from_value int_ops 42 ;; optional_dtor int_ops this)
    empty_world =
    Returns tt (mk_world ∅ [constructed 42; destroyed 42]).
Proof.
  split; [reflexivity|].
  exact (construct_then_destroy int_ops empty_world 42 42 eq_refl).
Defined.


(** X4 on [optional<int>]: [a = 9] on a disengaged [a] and on an [a]
    that holds [1]. *)
Lemma assign_value_spec_witness :
  (objs (one_optional (@fresh_optional Z)) !! 0%nat = Some fresh_optional /\
   T_copy_ctor int_ops 9 = inr 9 /\
   assign_value int_ops 0%nat 9 (one_optional fresh_optional) =
     Returns 0%nat
       (mk_world (<[0%nat := mk_optional (live 9) true]>
                    {[ 0%nat := fresh_optional ]})
                 [constructed 9]))
  /\ (objs (one_optional (mk_optional (live 1) true)) !! 0%nat =
       Some (mk_optional (live 1) true) /\
     T_copy_assign int_ops 1 9 = (None, 9) /\
     assign_value int_ops 0%nat 9 (one_optional (mk_optional (live 1) true)) =
       Returns 0%nat
         (mk_world (<[0%nat := mk_optional (live 9) true]>
                      {[ 0%nat := mk_optional (live 1) true ]})
                   [])).
Proof.
  split; (split; [reflexivity|]); (split; [reflexivity|]).
  - exact (proj1 (assign_value_spec int_ops (one_optional fresh_optional)
                    0%nat fresh_optional 9 eq_refl)
                 9 eq_refl eq_refl).
  - exact (proj2 (assign_value_spec int_ops
                    (one_optional (mk_optional (live 1) true))
                    0%nat (mk_optional (live 1) true) 9 eq_refl)
                 1 9 None eq_refl eq_refl eq_refl).
Defined.

(** X5 on [optional<std::vector<int>>]: [a = std::vector<int>{4, 5}] on a
    disengaged [a] and on an [a] that holds [{1}]. *)
Lemma assign_rvalue_spec_witness :
  (objs (one_optional (@fresh_optional (list Z))) !! 0%nat =
     Some fresh_optional /\
   fst (T_move_ctor vector_ops [4; 5]) = inr [4; 5] /\
   assign_rvalue vector_ops 0%nat [4; 5] (one_optional fresh_optional) =
     Returns 0%nat
       (mk_world (<[0%nat := mk_optional (live [4; 5]) true]>
                    {[ 0%nat := fresh_optional ]})
                 [constructed [4; 5]]))
  /\ (objs (one_optional (mk_optional (live [1]) true)) !! 0%nat =
       Some (mk_optional (live [1]) true) /\
     T_move_assign vector_ops [1] [4; 5] = (None, ([4; 5], [])) /\
     assign_rvalue vector_ops 0%nat [4; 5]
       (one_optional (mk_optional (live [1]) true)) =
       Returns 0%nat
         (mk_world (<[0%nat := mk_optional (live [4; 5]) true]>
                      {[ 0%nat := mk_optional (live [1]) true ]})
                   [])).
Proof.
  split; (split; [reflexivity|]); (split; [reflexivity|]).
  - exact (proj1 (assign_rvalue_spec vector_ops (one_optional fresh_optional)
                    0%nat fresh_optional [4; 5] eq_refl)
                 [4; 5] eq_refl eq_refl).
  - exact (proj2 (assign_rvalue_spec vector_ops
                    (one_optional (mk_optional (live [1]) true))
                    0%nat (mk_optional (live [1]) true) [4; 5] eq_refl)
                 [1] [4; 5] [] None eq_refl eq_refl eq_refl).
Defined.

(** X6 on [optional<int>]: [optional<int> a; a = 42; a.reset();
    a.value();]. *)
Lemma lifecycle_witness :
  T_copy_ctor int_ops 42 = inr 42 /\
  exists a w1 w2 w3,
    optional_default int_ops empty_world = Returns a w1 /\
    trace w1 = [] /\
    has_value int_ops a w1 = Returns false w1 /\
    value int_ops a w1 = Throws bad_optional_access w1 /\
    assign_value int_ops a 42 w1 = Returns a w2 /\
    has_value int_ops a w2 = Returns true w2 /\
    (p <- value int_ops a ;; read int_ops p) w2 = Returns 42 w2 /\
    reset int_ops a w2 = Returns tt w3 /\
    has_value int_ops a w3 = Returns false w3 /\
    value int_ops a w3 = Throws bad_optional_access w3.
Proof.
  split; [reflexivity|].
  exact (lifecycle int_ops empty_world 42 42 eq_refl).
Defined.

(** X7 on [optional<std::vector<int>>]: [optional b(a)] with [a] holding
    [{1, 2, 3}]. *)
Lemma optional_copy_spec_witness :
  (objs (one_optional (mk_optional (live [1; 2; 3]) true)) !! 0%nat =
     Some (mk_optional (live [1; 2; 3]) true) /\
   T_copy_ctor vector_ops [1; 2; 3] = inr [1; 2; 3]) /\
  exists this w',
    optional_copy vector_ops 0%nat
      (one_optional (mk_optional (live [1; 2; 3]) true)) = Returns this w' /\
    objs w' !! this = Some (mk_optional (live [1; 2; 3]) true) /\
    objs w' !! 0%nat = Some (mk_optional (live [1; 2; 3]) true) /\
    trace w' = [constructed [1; 2; 3]].
Proof.
  split; [split; reflexivity|].
  destruct (proj1 (optional_copy_spec vector_ops
                     (one_optional (mk_optional (live [1; 2; 3]) true))
                     0%nat (mk_optional (live [1; 2; 3]) true) eq_refl)
                  [1; 2; 3] [1; 2; 3] eq_refl eq_refl eq_refl)
    as (this & w' & Hrun & Hthis & Hother & Htrace & _).
  exists this, w'. repeat split; assumption.
Defined.

(** X8 with a [T] whose copy and move of [0] throw: [optional<T> b(a)] and
    [optional<T> b(std::move(a))] with [a] holding [0]. *)
Lemma constructor_exception_witness :
  (objs (one_optional (mk_optional (live 0) true)) !! 0%nat =
     Some (mk_optional (live 0) true) /\
   T_copy_ctor thrower_ops 0 = inl construction_refused /\
   T_move_ctor thrower_ops 0 = (inl construction_refused, 0)) /\
  optional_copy thrower_ops 0%nat (one_optional (mk_optional (live 0) true)) =
    Throws (T_exception construction_refused)
      (one_optional (mk_optional (live 0) true)) /\
  exists w',
    optional_move thrower_ops 0%nat
      (one_optional (mk_optional (live 0) true)) = Terminates w'.
Proof.
  split; [repeat split; reflexivity|].
  destruct (constructor_exception thrower_ops
              (one_optional (mk_optional (live 0) true)) 0%nat 0
              construction_refused eq_refl) as [Hcopy Hmove].
  split; [exact (Hcopy eq_refl)|exact (Hmove 0 eq_refl)].
Defined.

(** X9 with a [T] whose constructor refuses a negative argument:
    [a.emplace(-1)] on a disengaged [a]. *)
Lemma after_emplace_throw_witness :
  (objs (one_optional (@fresh_optional Z)) !! 0%nat = Some fresh_optional /\
   consistent (@fresh_optional Z) = true /\
   T_ctor thrower_ops (-1) = inl construction_refused) /\
  exists w',
    emplace thrower_ops 0%nat (-1) (one_optional fresh_optional) =
      Throws (T_exception construction_refused) w' /\
    reset thrower_ops 0%nat w' = Undefined /\
    optional_dtor thrower_ops 0%nat w' = Undefined /\
    (forall args', emplace thrower_ops 0%nat args' w' = Undefined) /\
    (forall val, assign_value thrower_ops 0%nat val w' = Undefined) /\
    (forall val, assign_rvalue thrower_ops 0%nat val w' = Undefined).
Proof.
  split; [repeat split; reflexivity|].
  exact (after_emplace_throw thrower_ops (one_optional fresh_optional) 0%nat
           fresh_optional (-1) construction_refused
           eq_refl eq_refl eq_refl).
Defined.

(** X10 on two [optional<int>]: [a.reset()] leaves [b] as it is. *)
Lemma frame_witness :
  (may_modify (@call_reset Z Z 0%nat) = Some [0%nat] /\
   objs (two_optionals (mk_optional (live 1) true)
                       (mk_optional (live 2) true)) !! 1%nat =
     Some (mk_optional (live 2) true) /\
   1%nat ∉ [0%nat]) /\
  exists w',
    final_world
      (run int_ops (call_reset 0%nat)
         (two_optionals (mk_optional (live 1) true)
                        (mk_optional (live 2) true))) = Some w' /\
    objs w' !! 1%nat = Some (mk_optional (live 2) true).
Proof.
  assert (Hnot : 1%nat ∉ [0%nat]).
  { apply not_elem_of_cons. split; [discriminate|apply not_elem_of_nil]. }
  split; [split; [reflexivity|split; [reflexivity|exact Hnot]]|].
  eexists. split; [reflexivity|].
  apply (frame int_ops (call_reset 0%nat)
           (two_optionals (mk_optional (live 1) true)
                          (mk_optional (live 2) true))
           _ [0%nat] 1%nat (mk_optional (live 2) true) eq_refl eq_refl Hnot).
  reflexivity.
Defined.

(** X11 on an [optional<int>] that holds [1]: [a = std::move(a)] and
    [*a]. *)
Lemma defined_behaviour_witness :
  (invariant (one_optional (mk_optional (live 1) true)) /\
   Forall
     (fun a => is_Some (objs (one_optional (mk_optional (live 1) true)) !! a))
     [0%nat] /\
   Forall
     (fun a => flag_at a (one_optional (mk_optional (live 1) true)) =
               Some true)
     [0%nat] /\
   0%nat ∈ operands (@call_deref Z Z 0%nat)) /\
  run int_ops (call_assign_move 0%nat 0%nat)
    (one_optional (mk_optional (live 1) true)) <> Undefined /\
  run int_ops (call_deref 0%nat)
    (one_optional (mk_optional (live 1) true)) <> Undefined /\
  exists v,
    (p <- deref int_ops 0%nat ;; read int_ops p)
      (one_optional (mk_optional (live 1) true)) =
      Returns v (one_optional (mk_optional (live 1) true)) /\
    (p <- arrow int_ops 0%nat ;; read int_ops p)
      (one_optional (mk_optional (live 1) true)) =
      Returns v (one_optional (mk_optional (live 1) true)).
Proof.
  assert (Hinv : invariant (one_optional (mk_optional (live 1) true))).
  { apply map_Forall_singleton. reflexivity. }
  assert (Hop : Forall
     (fun a => is_Some (objs (one_optional (mk_optional (live 1) true)) !! a))
     [0%nat]).
  { repeat constructor; eexists; reflexivity. }
  assert (Hop2 : Forall
     (fun a => is_Some (objs (one_optional (mk_optional (live 1) true)) !! a))
     [0%nat; 0%nat]).
  { repeat constructor; eexists; reflexivity. }
  assert (Hflag : Forall
     (fun a => flag_at a (one_optional (mk_optional (live 1) true)) =
               Some true)
     [0%nat]).
  { repeat constructor. }
  assert (Hin : 0%nat ∈ operands (@call_deref Z Z 0%nat)).
  { apply list_elem_of_singleton. reflexivity. }
  split; [repeat split; assumption|].
  split.
  - apply (defined_behaviour int_ops (call_assign_move 0%nat 0%nat)
             (one_optional (mk_optional (live 1) true)) Hinv Hop2 eq_refl).
    discriminate.
  - destruct (defined_behaviour int_ops (call_deref 0%nat)
                (one_optional (mk_optional (live 1) true)) Hinv Hop eq_refl
                (fun _ => Hflag)) as [Hdefined Hread].
    split; [exact Hdefined|]. exact (Hread eq_refl 0%nat Hin).
Defined.

(** X12 on [optional<int>]: a call of [operator=(const int&)] on a container
    that holds [1]. *)
Lemma nothrow_exceptions_witness :
  nothrow int_ops /\
  (forall x w',
     run int_ops (call_assign_value 0%nat 2)
       (one_optional (mk_optional (live 1) true)) = Throws x w' ->
     checked_access (@call_assign_value Z Z 0%nat 2) = true /\
     x = bad_optional_access) /\
  (forall w',
     run int_ops (call_optional_move 0%nat)
       (one_optional (mk_optional (live 1) true)) <> Terminates w').
Proof.
  assert (int_nothrow : nothrow int_ops).
  { repeat split; intros; try eexists; reflexivity. }
  split; [exact int_nothrow|]. split.
  - exact (proj1 (nothrow_exceptions int_ops (call_assign_value 0%nat 2)
                    (one_optional (mk_optional (live 1) true)) int_nothrow)).
  - exact (proj2 (nothrow_exceptions int_ops (call_optional_move 0%nat)
                    (one_optional (mk_optional (live 1) true)) int_nothrow)).
Defined.

(** X13 on two [optional<int>]: [a = b] with [a] holding [1] and [b]
    disengaged, and [optional<int> c(b)]. *)
Lemma mirrors_engagement_witness :
  is_Some (objs (two_optionals (mk_optional (live 1) true)
                               (@fresh_optional Z)) !! 1%nat) /\
  (exists w',
     assign_copy int_ops 0%nat 1%nat
       (two_optionals (mk_optional (live 1) true) fresh_optional) =
       Returns 0%nat w' /\
     flag_at 0%nat w' = Some false /\
     flag_at 1%nat w' = Some false) /\
  (exists a w',
     optional_copy int_ops 1%nat
       (two_optionals (mk_optional (live 1) true) fresh_optional) =
       Returns a w' /\
     flag_at a w' = Some false /\
     flag_at 1%nat w' = Some false).
Proof.
  assert (Hother : is_Some (objs (two_optionals (mk_optional (live 1) true)
                                    (@fresh_optional Z)) !! 1%nat)).
  { eexists. reflexivity. }
  split; [exact Hother|]. split.
  - eexists. split; [reflexivity|].
    apply (proj1 (mirrors_engagement int_ops
                    (two_optionals (mk_optional (live 1) true) fresh_optional)
                    0%nat 1%nat 0%nat _ Hother)).
    left. reflexivity.
  - do 2 eexists. split; [reflexivity|].
    apply (proj2 (mirrors_engagement int_ops
                    (two_optionals (mk_optional (live 1) true) fresh_optional)
                    0%nat 1%nat _ _ Hother)).
    left. reflexivity.
Defined.

(** X14 on [optional<int>]: [optional<int> a(1); a.emplace(2); a.value();
    a.reset(); a.value();], the last call throwing. *)
Lemma invariant_run_seq_witness :
  ((forall a, exists v, T_ctor int_ops a = inr v) /\
   invariant (@empty_world Z)) /\
  exists w',
    run_seq int_ops
      [call_optional_from_value 1; call_emplace 0%nat 2; call_value 0%nat;
       call_reset 0%nat; call_value 0%nat]
      empty_world = Some w' /\
    trace w' = [constructed 1; destroyed 1; constructed 2; destroyed 2] /\
    invariant w'.
Proof.
  assert (Hctor : forall a, exists v, T_ctor int_ops a = inr v).
  { intros a. eexists. reflexivity. }
  assert (Hinv : invariant (@empty_world Z)).
  { apply map_Forall_empty. }
  split; [split; assumption|].
  eexists. split; [reflexivity|]. split; [reflexivity|].
  apply (invariant_run_seq int_ops
           [call_optional_from_value 1; call_emplace 0%nat 2;
            call_value 0%nat; call_reset 0%nat; call_value 0%nat]
           empty_world _ Hctor Hinv).
  reflexivity.
Defined.

(** X15 on two [optional<std::vector<int>>]: [a = b] with [a] holding
    [{9}] and [b] holding [{1, 2, 3}]. *)
Lemma assign_copy_spec_witness :
  (0%nat <> 1%nat /\
   objs (two_optionals (mk_optional (live [9]) true)
                       (mk_optional (live [1; 2; 3]) true)) !! 0%nat =
     Some (mk_optional (live [9]) true) /\
   objs (two_optionals (mk_optional (live [9]) true)
                       (mk_optional (live [1; 2; 3]) true)) !! 1%nat =
     Some (mk_optional (live [1; 2; 3]) true) /\
   consistent (mk_optional (live [9]) true) = true /\
   consistent (mk_optional (live [1; 2; 3]) true) = true) /\
  assign_copy vector_ops 0%nat 1%nat
    (two_optionals (mk_optional (live [9]) true)
                   (mk_optional (live [1; 2; 3]) true)) =
    Returns 0%nat
      (mk_world
         (<[0%nat := mk_optional (live [1; 2; 3]) true]>
            (<[1%nat := mk_optional (live [1; 2; 3]) true]>
               {[ 0%nat := mk_optional (live [9]) true ]}))
         []).
Proof.
  assert (Hne : 0%nat <> 1%nat) by discriminate.
  split; [repeat split; (exact Hne || reflexivity)|].
  exact (assign_copy_spec vector_ops
           (two_optionals (mk_optional (live [9]) true)
                          (mk_optional (live [1; 2; 3]) true))
           0%nat 1%nat _ _ Hne eq_refl eq_refl eq_refl eq_refl).
Defined.

(** X16 on two [optional<std::vector<int>>]: [a = std::move(b)] with [a]
    disengaged and [b] holding [{1, 2, 3}]. *)
Lemma assign_move_spec_witness :
  (0%nat <> 1%nat /\
   objs (two_optionals fresh_optional
                       (mk_optional (live [1; 2; 3]) true)) !! 0%nat =
     Some fresh_optional /\
   objs (two_optionals fresh_optional
                       (mk_optional (live [1; 2; 3]) true)) !! 1%nat =
     Some (mk_optional (live [1; 2; 3]) true) /\
   consistent (@fresh_optional (list Z)) = true /\
   consistent (mk_optional (live [1; 2; 3]) true) = true) /\
  assign_move vector_ops 0%nat 1%nat
    (two_optionals fresh_optional (mk_optional (live [1; 2; 3]) true)) =
    Returns 0%nat
      (mk_world
         (<[0%nat := mk_optional (live [1; 2; 3]) true]>
            (<[1%nat := mk_optional (live []) true]>
               (<[1%nat := mk_optional (live [1; 2; 3]) true]>
                  {[ 0%nat := fresh_optional ]})))
         [constructed [1; 2; 3]]).
Proof.
  assert (Hne : 0%nat <> 1%nat) by discriminate.
  split; [repeat split; (exact Hne || reflexivity)|].
  exact (assign_move_spec vector_ops
           (two_optionals fresh_optional (mk_optional (live [1; 2; 3]) true))
           0%nat 1%nat _ _ Hne eq_refl eq_refl eq_refl eq_refl).
Defined.

End bmstu.
